(** * errs: typed errors with slugs, and their HTTP mapping

    A shallow embedding of package [errs] (the file that declares [Err],
    [slug.go] and [http.go]) and the properties of its construction,
    enrichment, extraction and transport functions.

    Go values are modelled as follows.
    - An interface value ([error], [Slug]) is [option errval]: [None] is the
      nil interface, [Some v] a dynamic value [v].
    - A Go map is a reference: a [map[string]string] value is [option loc]
      ([None] is the nil map) and the entries live in a store
      [gmap loc (gmap string string)], so that two [Err] values holding the
      same map are seen to share it.
    - A call that can panic returns an [outcome]. *)

From stdpp Require Import gmap strings list fin_maps.
From Stdlib Require Import ZArith.

Set Warnings "-register-all".

(** ** Outcomes of calls that may panic *)

Inductive outcome (A : Type) : Type :=
| Returns (a : A)
| Panics (msg : string).
Arguments Returns {A} a.
Arguments Panics {A} msg.

Definition returns_normally {A} (o : outcome A) : Prop :=
  match o with Returns _ => True | Panics _ => False end.

Definition panics {A} (o : outcome A) : Prop :=
  match o with Returns _ => False | Panics _ => True end.

Definition nil_dereference : string :=
  "runtime error: invalid memory address or nil pointer dereference".

(** ** slug.go: the slug types *)

(** The named string types that implement [Slug]: the eight that [slug.go]
    declares, and [Other name] for a string-backed slug type declared
    elsewhere (the package invites new slugs based on slug types). *)
Inductive SlugType : Type :=
| Unknown | NotFound | Invalid | Unauthorized | Forbidden
| Duplicate | NotImplemented | Internal
| Other (name : string).

(** Modelled from the spec: the type [BadRequest].  [http.go] keys its table
    with a nil pointer to [BadRequest] and the README declares slugs of type
    [errs.BadRequest], but [slug.go] holds no declaration of it (the spec's
    table names the category Invalid/BadRequest); it is taken to be one more
    string-backed slug type. *)
Definition BadRequest : SlugType := Other "BadRequest".

#[global] Instance SlugType_eq_dec : EqDecision SlugType.
Proof. solve_decision. Defined.

(** ** The validation collaborator (package validator, universal-translator) *)

(** [ut.Translator], identified by its locale. *)
Inductive Translator : Type := translator (locale : string).

(** A non-nil [validator.FieldError], by the results of the three methods
    the package calls on it. *)
Record FieldError : Type := mkFieldError {
  fe_Error : string;
  fe_Field : string;
  fe_Translate : Translator -> string
}.

(** ** Params and Err; error values *)

(** The identity of a Go map object. *)
Definition loc : Type := positive.

(** Dynamic (non-nil) error values:
    - [SlugV t s]: the string [s] at slug type [t];
    - [NilPtr t]: the nil pointer to slug type [t];
    - [ErrV e]: an [Err] struct value;
    - [Leaf msg]: an error with neither [Unwrap] nor [As], such as the result
      of [errors.New];
    - [Wrap msg inner]: [Unwrap() error] returns [inner], as [*fmt.wrapError]
      (one [%w]);
    - [Join msg inners]: [Unwrap() []error] returns [inners], as
      [*fmt.wrapErrors] (several [%w]);
    - [InvalidValidationError msg]: a [*validator.InvalidValidationError];
    - [ValidationErrors msg fes]: a [validator.ValidationErrors] slice, whose
      elements are [FieldError] interface values.
    For the two validator types [msg] is the text their [Error] method
    gives. *)
Inductive errval : Type :=
| SlugV (t : SlugType) (s : string)
| NilPtr (t : SlugType)
| ErrV (e : Err)
| Leaf (msg : string)
| Wrap (msg : string) (inner : option errval)
| Join (msg : string) (inners : list (option errval))
| InvalidValidationError (msg : string)
| ValidationErrors (msg : string) (fes : list (option FieldError))
with Err : Type :=
| mkErr (slug : option errval) (error : option errval)
        (details : string) (params : option loc).

(** The interface types [error] and [Slug] have the same method set
    ([Error() string]). *)
Definition error : Type := option errval.
Definition Slug : Type := option errval.
Definition Params : Type := option loc.

Definition e_slug (e : Err) : Slug := let 'mkErr s _ _ _ := e in s.
Definition e_error (e : Err) : error := let 'mkErr _ c _ _ := e in c.
Definition e_details (e : Err) : string := let 'mkErr _ _ d _ := e in d.
Definition e_params (e : Err) : Params := let 'mkErr _ _ _ p := e in p.

(** The store of map objects. *)
Abbreviation heap := (gmap loc (gmap string string)).

(** The entries of a map value: a nil map reads as the empty map. *)
Definition entries (h : heap) (p : Params) : gmap string string :=
  match p with
  | None => ∅
  | Some l => default ∅ (h !! l)
  end.

(** [len(m)] *)
Definition len (h : heap) (p : Params) : nat := size (entries h p).

(** ** slug.go: the constants *)

Definition SlugUnknown : errval := SlugV Unknown "unknown".
Definition SlugNotFound : errval := SlugV NotFound "not-found".
Definition SlugInvalid : errval := SlugV Invalid "request-invalid".
Definition SlugUnauthorized : errval := SlugV Unauthorized "unauthorized".
Definition SlugForbidden : errval := SlugV Forbidden "forbidden".
Definition SlugDuplicate : errval := SlugV Duplicate "already-exists".
Definition SlugNotImplemented : errval := SlugV NotImplemented "not-implemented".
Definition SlugInternal : errval := SlugV Internal "internal-error".

(** ** The [Error] methods *)

(** [v.Error()].  The slug types return their string; calling the value
    method through a nil pointer panics; [Err.Error] is

      if e.details is empty, return e.error.Error()
      return e.error.Error() + ": " + e.details

    which panics when [e.error] is nil. *)
Fixpoint Error (v : errval) : outcome string :=
  match v with
  | SlugV _ s => Returns s
  | NilPtr _ => Panics nil_dereference
  | ErrV (mkErr _ cause details _) =>
      match cause with
      | None => Panics nil_dereference
      | Some c =>
          match Error c with
          | Returns s =>
              if decide (details = "") then Returns s
              else Returns (s +:+ ": " +:+ details)
          | Panics msg => Panics msg
          end
      end
  | Leaf msg => Returns msg
  | Wrap msg _ => Returns msg
  | Join msg _ => Returns msg
  | InvalidValidationError msg => Returns msg
  | ValidationErrors msg _ => Returns msg
  end.

Definition Err_Error (e : Err) : outcome string := Error (ErrV e).

(** ** Package errors: [errors.As] *)

(** The type of the variable the target pointer points to, at the three
    call shapes of the package. *)
Inductive TargetType : Type :=
| T_Err                          (* var e Err; errors.As(err, &e) *)
| T_error                        (* errType of type error; errors.As(_, &errType) *)
| T_InvalidValidationErrorPtr.   (* var p *validator.InvalidValidationError *)

(** [reflectlite.TypeOf(err).AssignableTo(targetType)]: every dynamic error
    value is assignable to the interface type [error]. *)
Definition AssignableTo (v : errval) (t : TargetType) : bool :=
  match t, v with
  | T_error, _ => true
  | T_Err, ErrV _ => true
  | T_InvalidValidationErrorPtr, InvalidValidationError _ => true
  | _, _ => false
  end.

(** The loop of [errors.as]: test the value, else follow [Unwrap() error],
    or search the results of [Unwrap() []error] depth first, skipping nil.
    [Some w] is "true, with [w] stored in the target". *)
Fixpoint as_ (t : TargetType) (v : errval) : option errval :=
  if AssignableTo v t then Some v
  else
    match v with
    | Wrap _ (Some inner) => as_ t inner
    | Join _ inners =>
        (fix first (l : list (option errval)) : option errval :=
           match l with
           | [] => None
           | None :: l' => first l'
           | Some x :: l' =>
               match as_ t x with
               | Some w => Some w
               | None => first l'
               end
           end) inners
    | _ => None
    end.

(** [errors.As(err, target)]: false on a nil [err]. *)
Definition errors_As (err : error) (t : TargetType) : option errval :=
  match err with
  | None => None
  | Some v => as_ t v
  end.

(** [var e Err; errors.As(err, &e)], with the [Err] found. *)
Definition errors_As_Err (err : error) : option Err :=
  match errors_As err T_Err with
  | Some (ErrV e) => Some e
  | _ => None
  end.

(** ** Construction *)

(** [strings.Join(details, ": ")] *)
Definition strings_Join (elems : list string) (sep : string) : string :=
  String.concat sep elems.

(** [New(slug, details...)]: the slug is also the initial cause. *)
Definition New (slug : Slug) (details : list string) : Err :=
  mkErr slug slug (strings_Join details ": ") None.

(** [getErr]: the [Err] found by [errors.As], else a fresh [Err] with
    [SlugUnknown] around [err]. *)
Definition getErr (err : error) : Err :=
  match errors_As_Err err with
  | Some e => e
  | None => mkErr (Some SlugUnknown) err "" None
  end.

Definition NewFromError (err : error) : Err := getErr err.

(** ** Extraction *)

Definition SlugFromErr (err : error) : Slug :=
  match errors_As_Err err with
  | Some e => e_slug e
  | None => Some SlugUnknown
  end.

Definition DetailFromErr (err : error) : string :=
  match errors_As_Err err with
  | Some e => e_details e
  | None => "unknown error"
  end.

Definition ParamsFromErr (err : error) : Params :=
  match errors_As_Err err with
  | Some e => e_params e
  | None => None
  end.

(** ** Enrichment *)

(** How [fmt.Errorf] renders one [%w] operand: the operand's [Error()];
    a nil operand is a bad verb; a panic inside [Error()] is caught and
    printed, as [<nil>] when the operand is a nil pointer. *)
Definition fmt_w (x : error) : string :=
  match x with
  | None => "%!w(<nil>)"
  | Some (NilPtr _) => "<nil>"
  | Some v =>
      match Error v with
      | Returns s => s
      | Panics msg => "%!v(PANIC=Error method: " +:+ msg +:+ ")"
      end
  end.

(** [fmt.Errorf("%w: %w", a, b)]: a [*fmt.wrapErrors] over the operands
    that are errors (a nil operand is left out of the list). *)
Definition fmt_Errorf_w_w (a b : error) : errval :=
  Join (fmt_w a +:+ ": " +:+ fmt_w b)
       (filter (fun x : error => is_Some x) [a; b]).

(** [e.WithError(err)]: value receiver, the copy gets the new cause. *)
Definition WithError (e : Err) (err : error) : Err :=
  let 'mkErr slug error details params := e in
  mkErr slug (Some (fmt_Errorf_w_w error err)) details params.

(** [e.WithDetails(details)]: [fmt.Sprintf("%s: %s", e.details, details)]. *)
Definition WithDetails (e : Err) (details' : string) : Err :=
  let 'mkErr slug error details params := e in
  mkErr slug error (details +:+ ": " +:+ details') params.

(** [make(Params)]: a new, empty map object. *)
Definition make_Params (h : heap) : loc * heap :=
  let l := fresh (dom h) in (l, <[l := ∅]> h).

(** [m[k] = v] on the map object at [l]. *)
Definition map_store (l : loc) (k v : string) (h : heap) : heap :=
  <[l := <[k := v]> (default ∅ (h !! l))]> h.

(** [for k, v := range params { m[k] = v }], with [m] the object at [l]. *)
Definition range_store (l : loc) (params : Params) (h : heap) : heap :=
  foldl (fun h' kv => map_store l kv.1 kv.2 h') h
        (map_to_list (entries h params)).

(** [e.WithParams(params)]: the receiver is a copy of the struct, but its
    [params] field refers to the same map object as the caller's value; a
    new object is made only when the field is nil. *)
Definition WithParams (e : Err) (params : Params) (h : heap) : Err * heap :=
  let 'mkErr slug error details p := e in
  let '(l, h1) :=
    match p with
    | None => make_Params h
    | Some l => (l, h)
    end in
  (mkErr slug error details (Some l), range_store l params h1).

(** [(p *Params).Add(key, value)]: returns the new value of [*p]. *)
Definition Params_Add (p : Params) (key value : string) (h : heap)
  : Params * heap :=
  let '(l, h1) :=
    match p with
    | None => make_Params h
    | Some l => (l, h)
    end in
  (Some l, map_store l key value h1).

(** [NewParams()] *)
Definition NewParams (h : heap) : Params * heap :=
  let '(l, h') := make_Params h in (Some l, h').

(** [(p *Params).IsNil()] *)
Definition Params_IsNil (p : Params) (h : heap) : bool :=
  bool_decide (len h p = 0%nat).

Section Validator.

(** [strings.ToLower], of package strings. *)
Variable strings_ToLower : string -> string.

(** The loop of [NewFromValidator] over the field errors: calling a method
    of a nil [FieldError] panics. *)
Fixpoint add_field_errors (fes : list (option FieldError))
    (tr : option Translator) (p : Params) (h : heap)
  : outcome (Params * heap) :=
  match fes with
  | [] => Returns (p, h)
  | None :: _ => Panics nil_dereference
  | Some fe :: rest =>
      let msg := fe_Error fe in
      let msg := match tr with
                 | Some t => fe_Translate fe t
                 | None => msg
                 end in
      let field := strings_ToLower (fe_Field fe) in
      let '(p', h') := Params_Add p field msg h in
      add_field_errors rest tr p' h'
  end.

(** [NewFromValidator(err, translator)]: the type assertion
    [err.(validator.ValidationErrors)] looks at the dynamic type of [err]
    itself and panics on any other type, and on nil. *)
Definition NewFromValidator (err : error) (tr : option Translator)
    (h : heap) : outcome (Err * heap) :=
  match errors_As err T_InvalidValidationErrorPtr with
  | Some _ => Returns (mkErr (Some SlugInvalid) err "" None, h)
  | None =>
      match err with
      | Some (ValidationErrors _ fes) =>
          match add_field_errors fes tr None h with
          | Returns (p, h') => Returns (mkErr (Some SlugInvalid) err "" p, h')
          | Panics msg => Panics msg
          end
      | _ =>
          Panics "interface conversion: error is not validator.ValidationErrors"
      end
  end.

End Validator.

(** ** http.go *)

Definition BlankType : string := "about:blank".

(** The status constants of package net/http that the package uses. *)
Definition StatusOK : Z := 200.
Definition StatusBadRequest : Z := 400.
Definition StatusUnauthorized : Z := 401.
Definition StatusForbidden : Z := 403.
Definition StatusNotFound : Z := 404.
Definition StatusConflict : Z := 409.
Definition StatusInternalServerError : Z := 500.
Definition StatusNotImplemented : Z := 501.

(** The map literal [errorMap] of [HTTPStatus], of type [map[error]int]:
    six entries, keyed by nil pointers of six distinct types. *)
Definition errorMap : list (error * Z) :=
  [ (Some (NilPtr NotFound), StatusNotFound);
    (Some (NilPtr BadRequest), StatusBadRequest);
    (Some (NilPtr Unauthorized), StatusUnauthorized);
    (Some (NilPtr Forbidden), StatusForbidden);
    (Some (NilPtr Duplicate), StatusConflict);
    (Some (NilPtr NotImplemented), StatusNotImplemented) ].

(** [range] over a Go map yields its entries in an order the language
    leaves unspecified (and the runtime randomizes): any arrangement of the
    entries. *)
Definition range_order (order : list (error * Z)) : Prop :=
  order ≡ₚ errorMap.

(** The loop

      for errType, statusCode := range errorMap {
          if errors.As(e.slug, &errType) { return statusCode }
      }

    over the entries in the order [range] yields them.  [errType] is a
    variable of the key type [error], so the target is a pointer to an
    [error] whatever key it holds. *)
Fixpoint range_errorMap (slug : Slug) (order : list (error * Z)) : option Z :=
  match order with
  | [] => None
  | (errType, statusCode) :: rest =>
      match errors_As slug T_error with
      | Some _ => Some statusCode
      | None => range_errorMap slug rest
      end
  end.

(** [HTTPStatus(err)], given the order in which [range] yields the table. *)
Definition HTTPStatus (order : list (error * Z)) (err : error) : Z :=
  let e := getErr err in
  match range_errorMap (e_slug e) order with
  | Some statusCode => statusCode
  | None => StatusInternalServerError
  end.

(** The values stored in the [map[string]any] of [ProblemJSON]. *)
Inductive any : Type :=
| any_ProblemJSONType (t : string)
| any_Slug (s : Slug)
| any_int (n : Z)
| any_string (s : string)
| any_map (m : Params).

(** [ProblemJSON(err, instance, pbType...)] *)
Definition ProblemJSON (order : list (error * Z)) (h : heap) (err : error)
    (instance : string) (pbType : list string) : gmap string any :=
  let code := HTTPStatus order err in
  let slug := SlugFromErr err in
  let detail := DetailFromErr err in
  let params := ParamsFromErr err in
  let t := match pbType with
           | [] => BlankType
           | t0 :: _ => t0
           end in
  let errMap : gmap string any :=
    <["instance" := any_string instance]>
      (<["status" := any_int code]>
         (<["title" := any_Slug slug]>
            (<["type" := any_ProblemJSONType t]> ∅))) in
  let errMap :=
    if decide (detail = "") then errMap
    else <["detail" := any_string detail]> errMap in
  let errMap :=
    if decide (0 < len h params)%nat
    then <["params" := any_map params]> errMap
    else errMap in
  errMap.

(** ** Vocabulary of the properties *)

(** The search of [as_] through the results of [Unwrap() []error]. *)
Definition as_first (t : TargetType) : list (option errval) -> option errval :=
  fix first (l : list (option errval)) : option errval :=
    match l with
    | [] => None
    | None :: l' => first l'
    | Some x :: l' =>
        match as_ t x with
        | Some w => Some w
        | None => first l'
        end
    end.

(** The unwrap chain of an error: the value itself, what [Unwrap() error]
    returns, and what the elements of [Unwrap() []error] reach.  [Err] has
    no [Unwrap] method, so the chain stops at an [Err]. *)
Inductive in_chain : errval -> errval -> Prop :=
| chain_here v : in_chain v v
| chain_Unwrap msg inner w :
    in_chain inner w -> in_chain (Wrap msg (Some inner)) w
| chain_Unwraps msg inners x w :
    In (Some x) inners -> in_chain x w -> in_chain (Join msg inners) w.

(** No Typed Error anywhere in the chain of [err] (a nil [err] has none). *)
Definition no_typed_error (err : error) : Prop :=
  match err with
  | None => True
  | Some v => forall e, ~ in_chain v (ErrV e)
  end.

(** Generic wrapping, one layer per message:
    [fmt.Errorf("...: %w", err)] gives a [*fmt.wrapError] around [err]. *)
Definition wraps (msgs : list string) (v : errval) : errval :=
  foldr (fun msg acc => Wrap msg (Some acc)) v msgs.


(** The three enrichment methods, as store transformers. *)
Inductive enrichment : Type :=
| E_WithError (err : error)
| E_WithDetails (details : string)
| E_WithParams (params : Params).

Definition enrich (op : enrichment) (e : Err) (h : heap) : Err * heap :=
  match op with
  | E_WithError err => (WithError e err, h)
  | E_WithDetails d => (WithDetails e d, h)
  | E_WithParams m => WithParams e m h
  end.



(** The dynamic type of [err] itself. *)
Definition is_InvalidValidationError (err : error) : bool :=
  match err with
  | Some (InvalidValidationError _) => true
  | _ => false
  end.

Definition is_ValidationErrors (err : error) : bool :=
  match err with
  | Some (ValidationErrors _ _) => true
  | _ => false
  end.

(** An [InvalidValidationError] somewhere in the unwrap chain of [err]. *)
Definition chain_has_InvalidValidationError (err : error) : Prop :=
  exists v msg, err = Some v /\ in_chain v (InvalidValidationError msg).

(** The statuses of the table. *)
Definition table_statuses : list Z :=
  [StatusNotFound; StatusBadRequest; StatusUnauthorized; StatusForbidden;
   StatusConflict; StatusNotImplemented].


(** ASCII lower-casing, an instance of [strings.ToLower] on ASCII text. *)
Definition ascii_lower (c : Ascii.ascii) : Ascii.ascii :=
  let n := Ascii.nat_of_ascii c in
  if bool_decide (65 <= n <= 90)%nat then Ascii.ascii_of_nat (n + 32) else c.

Fixpoint ascii_ToLower (s : string) : string :=
  match s with
  | EmptyString => EmptyString
  | String c s' => String (ascii_lower c) (ascii_ToLower s')
  end.

(** The table with its first two entries exchanged: one more order in
    which [range] may yield it. *)
Definition BadRequest_first : list (error * Z) :=
  (Some (NilPtr BadRequest), StatusBadRequest)
    :: (Some (NilPtr NotFound), StatusNotFound) :: drop 2 errorMap.

(** A scenario for [WithParams]: two maps of the caller, [{"x": "1"}] at
    [1] and [{"y": "2"}] at [2]; [scenario_e] is
    [New(SlugInvalid).WithParams(m1)], then enriched by [WithParams(m2)]. *)
Definition scenario_h0 : heap :=
  <[2%positive := {["y" := "2"]}]> (<[1%positive := {["x" := "1"]}]> ∅).

Definition scenario_e : Err :=
  (WithParams (New (Some SlugInvalid) []) (Some 1%positive) scenario_h0).1.

Definition scenario_h1 : heap :=
  (WithParams (New (Some SlugInvalid) []) (Some 1%positive) scenario_h0).2.

(** A wrapped [InvalidValidationError]:
    [fmt.Errorf("validate: %w", &validator.InvalidValidationError{})]. *)
Definition wrapped_InvalidValidationError : error :=
  Some (Wrap "validate: validator: (nil)"
          (Some (InvalidValidationError "validator: (nil)"))).

(** A map value of the program: nil, or a reference to an object of the
    store. *)
Definition allocated (h : heap) (p : Params) : Prop :=
  match p with
  | None => True
  | Some l => is_Some (h !! l)
  end.

(** The key and the message that [NewFromValidator] records for one field
    error: the lower-cased field name, and the translation when a
    translator is given, the error text otherwise. *)
Definition field_entry (strings_ToLower : string -> string)
    (tr : option Translator) (fe : FieldError) : string * string :=
  (strings_ToLower (fe_Field fe),
   match tr with
   | Some t => fe_Translate fe t
   | None => fe_Error fe
   end).

(** The spec's merge example: [{"x": "1"}] at [1], [{"x": "2", "y": "3"}]
    at [2]. *)
Definition merge_h0 : heap :=
  <[2%positive := <["y" := "3"]> {["x" := "2"]}]>
    (<[1%positive := {["x" := "1"]}]> ∅).

(** Two failing fields, as the validator reports them. *)
Definition two_field_errors : error :=
  Some (ValidationErrors "Key: 'User.Email'; Key: 'User.Age'"
          [Some (mkFieldError "Key: 'User.Email' failed on 'email'" "Email"
                   (fun _ => "Email must be a valid address"));
           Some (mkFieldError "Key: 'User.Age' failed on 'gte'" "Age"
                   (fun _ => "Age must be 18 or greater"))]).

(** Case analysis on membership in an explicit list. *)
Ltac elem_of_cases H :=
  repeat (apply elem_of_cons in H as [H|H]; [|]);
  [..| by apply elem_of_nil in H].

(** * Properties *)

(** ** The chain walk of [errors.As] *)

Section errval_chain_ind.
Variable P : errval -> Prop.
Hypothesis HSlugV : forall t s, P (SlugV t s).
Hypothesis HNilPtr : forall t, P (NilPtr t).
Hypothesis HErrV : forall e, P (ErrV e).
Hypothesis HLeaf : forall msg, P (Leaf msg).
Hypothesis HWrapNil : forall msg, P (Wrap msg None).
Hypothesis HWrap : forall msg inner, P inner -> P (Wrap msg (Some inner)).
Hypothesis HJoin : forall msg inners,
    (forall x, In (Some x) inners -> P x) -> P (Join msg inners).
Hypothesis HIVE : forall msg, P (InvalidValidationError msg).
Hypothesis HVE : forall msg fes, P (ValidationErrors msg fes).

(** Induction along [Unwrap], the recursion of [as_]. *)
Fixpoint errval_chain_ind (v : errval) : P v :=
  match v with
  | SlugV t s => HSlugV t s
  | NilPtr t => HNilPtr t
  | ErrV e => HErrV e
  | Leaf msg => HLeaf msg
  | Wrap msg None => HWrapNil msg
  | Wrap msg (Some inner) => HWrap msg inner (errval_chain_ind inner)
  | Join msg inners =>
      HJoin msg inners
        ((fix all (l : list (option errval))
            : forall x, In (Some x) l -> P x :=
            match l with
            | [] => fun x (H : In (Some x) []) => False_ind _ H
            | o :: l' =>
                fun x (H : In (Some x) (o :: l')) =>
                  match H with
                  | or_introl Heq =>
                      match o return o = Some x -> P x with
                      | Some y => fun E =>
                          eq_ind y P (errval_chain_ind y) x
                            (f_equal (fun o => default y o) E)
                      | None => fun E =>
                          False_ind _ (eq_ind None
                            (fun o => match o with None => True | Some _ => False end)
                            I (Some x) E)
                      end Heq
                  | or_intror Hin => all l' x Hin
                  end
            end) inners)
  | InvalidValidationError msg => HIVE msg
  | ValidationErrors msg fes => HVE msg fes
  end.
End errval_chain_ind.

Lemma as_Join (t : TargetType) (msg : string) (inners : list (option errval)) :
  as_ t (Join msg inners) =
  if AssignableTo (Join msg inners) t then Some (Join msg inners)
  else as_first t inners.
Proof. reflexivity. Qed.

Lemma as_first_Some (t : TargetType) (l : list (option errval)) (w : errval) :
  as_first t l = Some w -> exists x, In (Some x) l /\ as_ t x = Some w.
Proof.
  induction l as [|[x|] l IH]; simpl; [done | |].
  - destruct (as_ t x) as [w'|] eqn:Hx.
    + intros [= <-]. exists x. split; [by left | done].
    + intros Hw. destruct (IH Hw) as (y & Hin & Hy).
      exists y. split; [by right | done].
  - intros Hw. destruct (IH Hw) as (y & Hin & Hy).
    exists y. split; [by right | done].
Qed.

Lemma as_first_is_Some (t : TargetType) (l : list (option errval)) (x : errval) :
  In (Some x) l -> is_Some (as_ t x) -> is_Some (as_first t l).
Proof.
  intros Hin Hx. induction l as [|[y|] l IH]; simpl in *; [done | |].
  - destruct Hin as [[= ->]|Hin].
    + destruct Hx as [w ->]. eauto.
    + destruct (as_ t y); [eauto | by apply IH].
  - destruct Hin as [|Hin]; [done | by apply IH].
Qed.

(** What [errors.As] stores in the target lies in the chain and has the
    target's type. *)
Lemma as_sound (t : TargetType) (v w : errval) :
  as_ t v = Some w -> in_chain v w /\ AssignableTo w t = true.
Proof.
  revert w. induction v as
    [ty s|ty|e|msg|msg|msg inner IH|msg inners IH|msg|msg fes]
    using errval_chain_ind; intros w; rewrite ?as_Join; simpl;
    destruct (AssignableTo _ t) eqn:Ha;
    try (intros [= <-]; split; [constructor | exact Ha]);
    try discriminate.
  - intros Hw. destruct (IH _ Hw) as [Hc Hty].
    split; [by constructor | done].
  - intros Hw. apply as_first_Some in Hw as (x & Hin & Hx).
    destruct (IH x Hin _ Hx) as [Hc Hty].
    split; [|done]. by eapply chain_Unwraps.
Qed.

(** [errors.As] succeeds as soon as the chain holds a value of the
    target's type. *)
Lemma as_complete (t : TargetType) (v w : errval) :
  in_chain v w -> AssignableTo w t = true -> is_Some (as_ t v).
Proof.
  intros Hc Hty. induction Hc as [v|msg inner w Hc IH|msg inners x w Hin Hc IH].
  - destruct v; rewrite ?as_Join; simpl in *; rewrite ?Hty; eauto.
  - simpl. destruct (AssignableTo (Wrap _ _) t); [eauto | by apply IH].
  - rewrite as_Join. destruct (AssignableTo (Join _ _) t); [eauto |].
    eapply as_first_is_Some; eauto.
Qed.

Lemma errors_As_Err_Some (v : errval) (e : Err) :
  errors_As_Err (Some v) = Some e -> in_chain v (ErrV e).
Proof.
  unfold errors_As_Err, errors_As.
  destruct (as_ T_Err v) as [w|] eqn:Hw; [|done].
  apply as_sound in Hw as [Hc Hty].
  destruct w; simpl in Hty; try discriminate. by intros [= <-].
Qed.

Lemma errors_As_Err_complete (v : errval) (e : Err) :
  in_chain v (ErrV e) -> is_Some (errors_As_Err (Some v)).
Proof.
  intros Hc. destruct (as_complete T_Err v (ErrV e) Hc eq_refl) as [w Hw].
  unfold errors_As_Err, errors_As. rewrite Hw.
  apply as_sound in Hw as [_ Hty].
  destruct w; simpl in Hty; try discriminate. eauto.
Qed.

Lemma errors_As_Err_None (err : error) :
  no_typed_error err -> errors_As_Err err = None.
Proof.
  destruct err as [v|]; [|done]. simpl. intros Hno.
  destruct (errors_As_Err (Some v)) as [e|] eqn:He; [|done].
  apply errors_As_Err_Some in He. by destruct (Hno e).
Qed.

Lemma errors_As_Err_wraps (msgs : list string) (e : Err) :
  errors_As_Err (Some (wraps msgs (ErrV e))) = Some e.
Proof. induction msgs as [|msg msgs IH]; [done | exact IH]. Qed.

(** ** Extraction through wrapping *)

(** C5. A Typed Error built by [New(c, details...)] and wrapped by any
    number of generic layers (one per message of [msgs]: none, one, five,
    or more) gives back [c] through [SlugFromErr]; and for every error
    whose unwrap chain holds a Typed Error, at whatever depth, [errors.As]
    finds a Typed Error of that chain and [SlugFromErr] returns its slug. *)
Theorem SlugFromErr_chain_walk :
  (forall (c : Slug) (details msgs : list string),
      SlugFromErr (Some (wraps msgs (ErrV (New c details)))) = c)
  /\ (forall (v : errval) (e : Err),
         in_chain v (ErrV e) ->
         exists e', errors_As_Err (Some v) = Some e'
                    /\ in_chain v (ErrV e')
                    /\ SlugFromErr (Some v) = e_slug e').
Proof.
  split.
  - intros c details msgs. unfold SlugFromErr.
    by rewrite errors_As_Err_wraps.
  - intros v e Hc.
    destruct (errors_As_Err_complete v e Hc) as [e' He'].
    exists e'. split; [done|]. split.
    + by apply errors_As_Err_Some.
    + unfold SlugFromErr. by rewrite He'.
Qed.

Lemma SlugFromErr_chain_walk_witness :
  SlugFromErr
    (Some (wraps ["e"; "d"; "c"; "b"; "a"]
             (ErrV (New (Some SlugForbidden) ["no"; "entry"]))))
  = Some SlugForbidden
  /\ exists e',
      errors_As_Err
        (Some (Join "x: y"
                 [Some (Leaf "x");
                  Some (Wrap "y" (Some (ErrV (New (Some SlugDuplicate) []))))]))
      = Some e'
      /\ in_chain
           (Join "x: y"
              [Some (Leaf "x");
               Some (Wrap "y" (Some (ErrV (New (Some SlugDuplicate) []))))])
           (ErrV e')
      /\ SlugFromErr
           (Some (Join "x: y"
                    [Some (Leaf "x");
                     Some (Wrap "y" (Some (ErrV (New (Some SlugDuplicate) []))))]))
         = e_slug e'.
Proof.
  split.
  - apply (proj1 SlugFromErr_chain_walk).
  - apply (proj2 SlugFromErr_chain_walk _ (New (Some SlugDuplicate) [])).
    eapply chain_Unwraps; [right; left; reflexivity |].
    apply chain_Unwrap, chain_here.
Defined.

(** ** Normalization *)

(** C6. Normalizing twice is normalizing once: [NewFromError] applied to
    the [Err] that [NewFromError(err)] returned gives that same [Err], so
    its slug and its details are the same too. *)
Theorem NewFromError_idempotent (err : error) :
  NewFromError (Some (ErrV (NewFromError err))) = NewFromError err
  /\ e_slug (NewFromError (Some (ErrV (NewFromError err))))
     = e_slug (NewFromError err)
  /\ e_details (NewFromError (Some (ErrV (NewFromError err))))
     = e_details (NewFromError err).
Proof. by repeat split. Qed.

(** ** Rendering *)

(** On a nil cause, [e.error.Error()] is a call on a nil interface. *)
Lemma Err_Error_nil_cause (e : Err) :
  e_error e = None -> Err_Error e = Panics nil_dereference.
Proof. destruct e as [slug cause details params]. simpl. by intros ->. Qed.

(** C8. For a Typed Error [e] whose cause [c] renders as [s]: [e.Error()]
    is [s] alone when the details of [e] are empty and [s], a colon and a
    space, and the details otherwise.  [New] takes the slug as the first
    cause and joins its detail parts with a colon and a space, so that
    [New(SlugNotFound, "a", "b").Error()] is ["not-found: a: b"]. *)
Theorem Err_Error_render (e : Err) (c : errval) (s : string) :
  e_error e = Some c ->
  Error c = Returns s ->
  (e_details e = "" -> Err_Error e = Returns s)
  /\ (e_details e <> "" -> Err_Error e = Returns (s +:+ ": " +:+ e_details e))
  /\ (forall (slug : Slug) (parts : list string),
         e_error (New slug parts) = slug
         /\ e_details (New slug parts) = strings_Join parts ": ")
  /\ Err_Error (New (Some SlugNotFound) ["a"; "b"]) = Returns "not-found: a: b".
Proof.
  destruct e as [slug cause details params]. simpl. intros -> Hs.
  unfold Err_Error. simpl. rewrite Hs.
  repeat split; intros; by case_decide.
Qed.

Lemma Err_Error_render_witness :
  (e_details (New (Some SlugInvalid) ["bad"; "email"]) = ""
   -> Err_Error (New (Some SlugInvalid) ["bad"; "email"])
      = Returns "request-invalid")
  /\ (e_details (New (Some SlugInvalid) ["bad"; "email"]) <> ""
      -> Err_Error (New (Some SlugInvalid) ["bad"; "email"])
         = Returns ("request-invalid" +:+ ": "
                    +:+ e_details (New (Some SlugInvalid) ["bad"; "email"])))
  /\ (forall (slug : Slug) (parts : list string),
         e_error (New slug parts) = slug
         /\ e_details (New slug parts) = strings_Join parts ": ")
  /\ Err_Error (New (Some SlugNotFound) ["a"; "b"]) = Returns "not-found: a: b".
Proof.
  apply (Err_Error_render (New (Some SlugInvalid) ["bad"; "email"])
           SlugInvalid "request-invalid"); reflexivity.
Defined.

(** ** Fallbacks of the extraction functions *)

(** C9. The extraction functions are total.  For every error value, nil
    included, whose unwrap chain holds no Typed Error, [SlugFromErr]
    returns [SlugUnknown], [DetailFromErr] returns the text
    ["unknown error"] and [ParamsFromErr] returns the nil map, which has
    no entries. *)
Theorem extraction_fallbacks (err : error) (h : heap) :
  no_typed_error err ->
  SlugFromErr err = Some SlugUnknown
  /\ DetailFromErr err = "unknown error"
  /\ ParamsFromErr err = None
  /\ len h (ParamsFromErr err) = 0%nat.
Proof.
  intros Hno%errors_As_Err_None.
  unfold SlugFromErr, DetailFromErr, ParamsFromErr. rewrite Hno.
  by repeat split.
Qed.

Lemma extraction_fallbacks_witness :
  SlugFromErr (Some (Wrap "open db: timeout" (Some (Leaf "timeout"))))
  = Some SlugUnknown
  /\ DetailFromErr (Some (Wrap "open db: timeout" (Some (Leaf "timeout"))))
     = "unknown error"
  /\ ParamsFromErr (Some (Wrap "open db: timeout" (Some (Leaf "timeout"))))
     = None
  /\ len ∅ (ParamsFromErr (Some (Wrap "open db: timeout" (Some (Leaf "timeout")))))
     = 0%nat.
Proof.
  apply extraction_fallbacks. simpl. intros e Hc.
  inversion Hc as [| ? ? ? Hc' |]; subst. inversion Hc'.
Defined.

(** ** The status mapping *)

(** With a pointer to an [error] as target, [errors.As] accepts every
    non-nil error at once. *)
Lemma errors_As_T_error (v : errval) : errors_As (Some v) T_error = Some v.
Proof. by destruct v. Qed.

(** For a non-nil slug the loop returns at its first iteration, with the
    status of the entry [range] yields first, whatever its key. *)
Lemma range_errorMap_first (v : errval) (order : list (error * Z)) :
  range_errorMap (Some v) order = snd <$> head order.
Proof.
  destruct order as [|[errType statusCode] rest]; [done|].
  simpl. by destruct v.
Qed.

Lemma range_errorMap_nil_slug (order : list (error * Z)) :
  range_errorMap None order = None.
Proof. induction order as [|[? ?] rest IH]; [done | exact IH]. Qed.

Lemma HTTPStatus_first (order : list (error * Z)) (err : error) (v : errval) :
  e_slug (getErr err) = Some v ->
  HTTPStatus order err
  = default StatusInternalServerError (snd <$> head order).
Proof.
  intros Hs. unfold HTTPStatus. rewrite Hs, range_errorMap_first.
  by destruct (head order).
Qed.

Lemma table_statuses_not (z : Z) :
  z ∈ table_statuses -> z <> StatusInternalServerError /\ z <> StatusOK.
Proof.
  unfold table_statuses. intros Hz.
  elem_of_cases Hz; subst z; by split.
Qed.

Lemma range_order_head (order : list (error * Z)) :
  range_order order ->
  exists errType statusCode,
    head order = Some (errType, statusCode) /\ statusCode ∈ table_statuses.
Proof.
  unfold range_order. intros Hp.
  destruct order as [|[errType statusCode] rest].
  { by apply Permutation_nil_l in Hp. }
  exists errType, statusCode. split; [done|].
  assert ((errType, statusCode) ∈ errorMap) as Hin.
  { rewrite <- Hp. by left. }
  unfold errorMap in Hin.
  elem_of_cases Hin; injection Hin as _ ->; unfold table_statuses;
    rewrite !elem_of_cons; tauto.
Qed.

Lemma HTTPStatus_in_table (order : list (error * Z)) (err : error) (v : errval) :
  range_order order ->
  e_slug (getErr err) = Some v ->
  HTTPStatus order err ∈ table_statuses.
Proof.
  intros (errType & statusCode & Hh & Hin)%range_order_head Hs.
  rewrite (HTTPStatus_first _ _ _ Hs), Hh. exact Hin.
Qed.

(** C1. The table is not what the loop computes.  In whatever order [range]
    yields the table, [HTTPStatus(New(c))] is the status of the entry
    yielded first, for each of the eight constants [c]; so it is one of the
    six statuses of the table and never 500, also for [SlugInternal] and
    [SlugUnknown], and for [SlugNotFound] it is 400 as soon as the entry of
    [BadRequest] comes first. *)
Theorem HTTPStatus_New_first_entry (order : list (error * Z)) :
  range_order order ->
  (forall c, c ∈ [SlugUnknown; SlugNotFound; SlugInvalid; SlugUnauthorized;
                  SlugForbidden; SlugDuplicate; SlugNotImplemented;
                  SlugInternal] ->
     HTTPStatus order (Some (ErrV (New (Some c) [])))
     = default StatusInternalServerError (snd <$> head order)
     /\ HTTPStatus order (Some (ErrV (New (Some c) []))) ∈ table_statuses)
  /\ HTTPStatus order (Some (ErrV (New (Some SlugInternal) [])))
     <> StatusInternalServerError
  /\ HTTPStatus order (Some (ErrV (New (Some SlugUnknown) [])))
     <> StatusInternalServerError
  /\ range_order BadRequest_first
  /\ HTTPStatus BadRequest_first (Some (ErrV (New (Some SlugNotFound) [])))
     = StatusBadRequest.
Proof.
  intros Ho.
  assert (range_order BadRequest_first) as Hswap by apply perm_swap.
  assert (forall c, HTTPStatus order (Some (ErrV (New (Some c) [])))
                    ∈ table_statuses) as Hin.
  { intros c. by eapply HTTPStatus_in_table. }
  split; [|repeat split; try apply table_statuses_not, Hin; done].
  intros c _. split; [by eapply HTTPStatus_first | apply Hin].
Qed.

Lemma HTTPStatus_New_first_entry_witness :
  HTTPStatus errorMap (Some (ErrV (New (Some SlugInternal) [])))
  <> StatusInternalServerError.
Proof.
  apply (HTTPStatus_New_first_entry errorMap). unfold range_order. reflexivity.
Defined.

(** C2. [HTTPStatus] has no case for nil: [getErr(nil)] is an [Err] with
    [SlugUnknown], and the loop returns the status of the entry [range]
    yields first.  The result is one of the six statuses of the table, never
    200. *)
Theorem HTTPStatus_nil_not_OK (order : list (error * Z)) :
  range_order order ->
  HTTPStatus order None ∈ table_statuses
  /\ HTTPStatus order None <> StatusOK.
Proof.
  intros Ho.
  assert (HTTPStatus order None ∈ table_statuses) as Hin.
  { by eapply HTTPStatus_in_table. }
  split; [done | by apply table_statuses_not].
Qed.

Lemma HTTPStatus_nil_not_OK_witness :
  HTTPStatus errorMap None ∈ table_statuses
  /\ HTTPStatus errorMap None <> StatusOK.
Proof.
  apply (HTTPStatus_nil_not_OK errorMap). unfold range_order. reflexivity.
Defined.

(** C3. Two evaluations of [HTTPStatus] on the same error can differ: the
    result follows the order in which [range] yields the table, and two
    orders that start with different entries give [New(SlugNotFound)] the
    statuses 404 and 501. *)
Theorem HTTPStatus_depends_on_range_order :
  exists order1 order2,
    range_order order1 /\ range_order order2
    /\ HTTPStatus order1 (Some (ErrV (New (Some SlugNotFound) [])))
       = StatusNotFound
    /\ HTTPStatus order2 (Some (ErrV (New (Some SlugNotFound) [])))
       = StatusNotImplemented.
Proof.
  exists errorMap, (reverse errorMap). unfold range_order.
  split; [reflexivity|]. split; [|done].
  by rewrite reverse_Permutation.
Qed.

(** ** The problem payload *)


(** ** Enrichment and the parameter store *)

Lemma foldl_insert_union (kvs : list (string * string)) (tgt : gmap string string) :
  NoDup kvs.*1 ->
  foldl (fun m kv => <[kv.1 := kv.2]> m) tgt kvs = list_to_map kvs ∪ tgt.
Proof.
  revert tgt. induction kvs as [|[k v] kvs IH]; intros tgt Hnd.
  { simpl. by rewrite (left_id_L ∅ (∪)). }
  rewrite fmap_cons in Hnd. apply NoDup_cons in Hnd as [Hk Hnd].
  rewrite list_to_map_cons. cbn [foldl fst snd]. rewrite IH by done.
  rewrite <- insert_union_l. symmetry. apply insert_union_r.
  by apply not_elem_of_list_to_map_1.
Qed.

Lemma entries_map_store (l : loc) (k v : string) (h : heap) :
  entries (map_store l k v h) (Some l) = <[k := v]> (entries h (Some l)).
Proof. unfold map_store. simpl. by rewrite lookup_insert_eq. Qed.

Lemma foldl_map_store_entries (l : loc) (kvs : list (string * string)) (h : heap) :
  entries (foldl (fun h' kv => map_store l kv.1 kv.2 h') h kvs) (Some l)
  = foldl (fun m kv => <[kv.1 := kv.2]> m) (entries h (Some l)) kvs.
Proof.
  revert h. induction kvs as [|[k v] kvs IH]; intros h; [done|].
  cbn [foldl]. by rewrite IH, entries_map_store.
Qed.

Lemma foldl_map_store_other (l l' : loc) (kvs : list (string * string)) (h : heap) :
  l' <> l ->
  foldl (fun h' kv => map_store l kv.1 kv.2 h') h kvs !! l' = h !! l'.
Proof.
  intros Hne. revert h. induction kvs as [|[k v] kvs IH]; intros h; [done|].
  cbn [foldl]. rewrite IH. unfold map_store. by rewrite lookup_insert_ne.
Qed.

(** The loop of [WithParams] leaves the target with the given entries
    merged over its own. *)
Lemma range_store_entries (l : loc) (params : Params) (h : heap) :
  entries (range_store l params h) (Some l)
  = entries h params ∪ entries h (Some l).
Proof.
  unfold range_store. rewrite foldl_map_store_entries.
  rewrite foldl_insert_union by apply NoDup_fst_map_to_list.
  by rewrite list_to_map_to_list.
Qed.

(** Every other map object is left as it was. *)
Lemma range_store_other (l l' : loc) (params : Params) (h : heap) :
  l' <> l -> range_store l params h !! l' = h !! l'.
Proof. apply foldl_map_store_other. Qed.

(** [WithParams] copies the entries: the map the caller passes keeps its
    entries, and a receiver without a map gets a new object, not the
    caller's. *)
Lemma WithParams_copies (e : Err) (l : loc) (h : heap) :
  is_Some (h !! l) ->
  entries (WithParams e (Some l) h).2 (Some l) = entries h (Some l)
  /\ (e_params e = None -> e_params (WithParams e (Some l) h).1 <> Some l).
Proof.
  intros Hl. destruct e as [slug cause details [l'|]]; simpl.
  - split; [|done]. destruct (decide (l = l')) as [->|Hne].
    + pose proof (range_store_entries l' (Some l') h) as Hm.
      rewrite (idemp_L (∪)) in Hm. exact Hm.
    + by rewrite range_store_other.
  - assert (fresh (dom h) <> l) as Hne.
    { intros <-. apply elem_of_dom in Hl. by apply is_fresh in Hl. }
    split; [|intros _; congruence].
    rewrite range_store_other by done. by rewrite lookup_insert_ne.
Qed.





(** ** Validation errors *)

Lemma errors_As_InvalidValidationError (err : error) :
  errors_As err T_InvalidValidationErrorPtr = None
  \/ chain_has_InvalidValidationError err.
Proof.
  destruct err as [v|]; [|by left]. simpl.
  destruct (as_ T_InvalidValidationErrorPtr v) as [w|] eqn:Hw; [|by left].
  right. apply as_sound in Hw as [Hc Hty].
  destruct w; simpl in Hty; try discriminate.
  by eexists _, _.
Qed.

(** C10, as stated, fails: an [InvalidValidationError] that was wrapped is
    neither of the two types, and [NewFromValidator] returns normally. *)
Lemma NewFromValidator_returns_on_wrapped :
  is_InvalidValidationError wrapped_InvalidValidationError = false
  /\ is_ValidationErrors wrapped_InvalidValidationError = false
  /\ NewFromValidator ascii_ToLower wrapped_InvalidValidationError None ∅
     = Returns (mkErr (Some SlugInvalid) wrapped_InvalidValidationError "" None, ∅).
Proof. by repeat split. Qed.

(** C10, amended.  [NewFromValidator(err, translator)] panics, at the type
    assertion, for every [err] (nil included) that has no
    [InvalidValidationError] anywhere in its unwrap chain and is not itself
    a [ValidationErrors] value; it returns normally only when the chain of
    [err] holds an [InvalidValidationError] or [err] itself is a
    [ValidationErrors] value. *)
Theorem NewFromValidator_panics_outside (strings_ToLower : string -> string)
    (err : error) (tr : option Translator) (h : heap) :
  (~ chain_has_InvalidValidationError err ->
   is_ValidationErrors err = false ->
   NewFromValidator strings_ToLower err tr h
   = Panics "interface conversion: error is not validator.ValidationErrors")
  /\ (returns_normally (NewFromValidator strings_ToLower err tr h) ->
      chain_has_InvalidValidationError err \/ is_ValidationErrors err = true).
Proof.
  unfold NewFromValidator. split.
  - intros Hno Hve.
    destruct (errors_As err T_InvalidValidationErrorPtr) as [w|] eqn:Hw.
    + destruct err as [v|]; [|done]. simpl in Hw.
      apply as_sound in Hw as [Hc Hty].
      destruct w; simpl in Hty; try discriminate.
      destruct Hno. by eexists _, _.
    + by destruct err as [[]|].
  - destruct (errors_As_InvalidValidationError err) as [->|Hc]; [|by left].
    destruct err as [[]|]; simpl; try done. by right.
Qed.

Lemma NewFromValidator_panics_outside_witness :
  NewFromValidator ascii_ToLower
    (Some (Wrap "save: unique" (Some (Leaf "unique")))) None ∅
  = Panics "interface conversion: error is not validator.ValidationErrors"
  /\ (chain_has_InvalidValidationError
        (Some (ValidationErrors "Key: 'User.Email'"
                 [Some (mkFieldError "Key: 'User.Email'" "Email" (fun _ => "e-mail"))]))
      \/ is_ValidationErrors
           (Some (ValidationErrors "Key: 'User.Email'"
                    [Some (mkFieldError "Key: 'User.Email'" "Email" (fun _ => "e-mail"))]))
         = true).
Proof.
  split.
  - apply (proj1 (NewFromValidator_panics_outside _ _ _ _)); [|reflexivity].
    intros (v & msg & [= <-] & Hc).
    inversion Hc as [| ? ? ? Hc' |]; subst. inversion Hc'.
  - apply (proj2 (NewFromValidator_panics_outside ascii_ToLower _
                    (Some (translator "fr")) ∅)).
    exact I.
Defined.

(** * Further properties of the code *)

(** ** Params *)

Lemma entries_make_Params (h : heap) (p : Params) :
  entries (make_Params h).2 p = entries h p.
Proof.
  unfold make_Params. destruct p as [l|]; [|done]. simpl.
  destruct (decide (fresh (dom h) = l)) as [<-|Hne].
  - rewrite lookup_insert_eq.
    by rewrite (proj1 (not_elem_of_dom h _) (is_fresh (dom h))).
  - by rewrite lookup_insert_ne.
Qed.

Lemma make_Params_fresh (h : heap) (l : loc) :
  is_Some (h !! l) -> (make_Params h).1 <> l.
Proof.
  intros Hl <-. apply elem_of_dom in Hl. by apply is_fresh in Hl.
Qed.

Lemma Params_Add_entries (p : Params) (key value : string) (h : heap) :
  entries (Params_Add p key value h).2 (Params_Add p key value h).1
  = <[key := value]> (entries h p).
Proof.
  destruct p as [l|]; cbn [Params_Add make_Params fst snd].
  - apply entries_map_store.
  - rewrite entries_map_store. unfold entries at 1.
    by rewrite lookup_insert_eq.
Qed.

Lemma Params_Add_other (p : Params) (key value : string) (h : heap) (l : loc) :
  is_Some (h !! l) -> p <> Some l ->
  (Params_Add p key value h).2 !! l = h !! l.
Proof.
  intros Hl Hne.
  destruct p as [l'|]; cbn [Params_Add make_Params fst snd]; unfold map_store.
  - rewrite lookup_insert_ne; [done | congruence].
  - pose proof (make_Params_fresh h l Hl) as Hf. cbn [make_Params fst] in Hf.
    by rewrite !lookup_insert_ne.
Qed.

Lemma Params_Add_result (p : Params) (key value : string) (h : heap) :
  (Params_Add p key value h).1 <> None
  /\ (p <> None -> (Params_Add p key value h).1 = p)
  /\ (forall l, is_Some (h !! l) -> p = None ->
        (Params_Add p key value h).1 <> Some l).
Proof.
  destruct p as [l'|]; cbn [Params_Add make_Params fst snd];
    repeat split; try done.
  intros l Hl _ [= Heq]. by apply (make_Params_fresh h l Hl).
Qed.

(** X1. [p.Add(key, value)] works on a nil map as on a map with entries:
    afterwards the map is not nil, holds [value] under [key], keeps every
    other entry, and [IsNil] answers false; every other map object of the
    store is as before. *)
Theorem Params_Add_lookup (p : Params) (key value : string) (h : heap) :
  (Params_Add p key value h).1 <> None
  /\ (p <> None -> (Params_Add p key value h).1 = p)
  /\ entries (Params_Add p key value h).2 (Params_Add p key value h).1 !! key
     = Some value
  /\ (forall k, k <> key ->
        entries (Params_Add p key value h).2 (Params_Add p key value h).1 !! k
        = entries h p !! k)
  /\ Params_IsNil (Params_Add p key value h).1 (Params_Add p key value h).2
     = false
  /\ (forall l, is_Some (h !! l) -> p <> Some l ->
        (Params_Add p key value h).2 !! l = h !! l).
Proof.
  pose proof (Params_Add_entries p key value h) as Hent.
  destruct (Params_Add_result p key value h) as (Hnn & Hsame & _).
  split; [done|]. split; [done|].
  split; [by rewrite Hent, lookup_insert_eq|].
  split; [intros k Hk; by rewrite Hent, lookup_insert_ne|].
  split.
  - unfold Params_IsNil, len. rewrite Hent. apply bool_decide_eq_false.
    rewrite map_size_empty_iff. apply insert_non_empty.
  - intros l Hl Hne. by apply Params_Add_other.
Qed.

(** X2. [IsNil] tests emptiness, not nil-ness: it answers true exactly
    when the map has no entry, so also for the non-nil map that
    [NewParams] returns, which is a new object of the store. *)
Theorem Params_IsNil_empty (p : Params) (h : heap) :
  (Params_IsNil p h = true <-> entries h p = ∅)
  /\ Params_IsNil None h = true
  /\ (NewParams h).1 <> None
  /\ Params_IsNil (NewParams h).1 (NewParams h).2 = true
  /\ (forall l, (NewParams h).1 = Some l -> h !! l = None).
Proof.
  split; [|split; [done|split; [done|split]]].
  - unfold Params_IsNil, len. rewrite bool_decide_eq_true.
    apply map_size_empty_iff.
  - unfold NewParams, Params_IsNil, len. simpl.
    by rewrite lookup_insert_eq.
  - unfold NewParams. simpl. intros l [= <-].
    apply not_elem_of_dom, is_fresh.
Qed.

(** ** WithParams *)

Lemma WithParams_entries (e : Err) (m : Params) (h : heap) :
  entries (WithParams e m h).2 (e_params (WithParams e m h).1)
  = entries h m ∪ entries h (e_params e).
Proof.
  destruct e as [slug cause details [l|]].
  - apply (range_store_entries l m h).
  - pose proof (range_store_entries (make_Params h).1 m (make_Params h).2) as Hm.
    rewrite entries_make_Params in Hm.
    rewrite (entries_make_Params h (Some (make_Params h).1)) in Hm.
    simpl in Hm |- *. rewrite Hm. f_equal.
    by rewrite (proj1 (not_elem_of_dom h _) (is_fresh (dom h))).
Qed.

(** X3. [e.WithParams(m)] returns [e] with the entries of [m] merged over
    its own: a key of [m] has the value [m] gives it, any other key keeps
    the value [e] had for it.  The result always holds a non-nil map, and
    slug, cause and details are those of [e]. *)
Theorem WithParams_merge (e : Err) (m : Params) (h : heap) :
  entries (WithParams e m h).2 (e_params (WithParams e m h).1)
  = entries h m ∪ entries h (e_params e)
  /\ (forall k v, entries h m !! k = Some v ->
        entries (WithParams e m h).2 (e_params (WithParams e m h).1) !! k
        = Some v)
  /\ (forall k, entries h m !! k = None ->
        entries (WithParams e m h).2 (e_params (WithParams e m h).1) !! k
        = entries h (e_params e) !! k)
  /\ e_params (WithParams e m h).1 <> None
  /\ e_slug (WithParams e m h).1 = e_slug e
  /\ e_error (WithParams e m h).1 = e_error e
  /\ e_details (WithParams e m h).1 = e_details e.
Proof.
  rewrite WithParams_entries.
  split; [done|]. split; [|split].
  - intros k v Hk. by apply lookup_union_Some_l.
  - intros k Hk. by apply lookup_union_r.
  - by destruct e as [slug cause details [l|]].
Qed.

(** X5. [e.WithParams(m)] writes to one map object only, the one [e]
    holds: every other object of the store, the map [m] of the caller
    included, keeps its entries; when [e] holds no map, no existing object
    is written at all. *)
Theorem WithParams_frame (e : Err) (m : Params) (h : heap) (l : loc) :
  is_Some (h !! l) ->
  e_params e <> Some l ->
  (WithParams e m h).2 !! l = h !! l
  /\ e_params (WithParams e m h).1 <> Some l.
Proof.
  intros Hl Hne. destruct e as [slug cause details [l'|]]; simpl in *.
  - split; [|done]. apply range_store_other. congruence.
  - pose proof (make_Params_fresh h l Hl) as Hf. simpl in Hf.
    split; [|congruence].
    rewrite range_store_other by done. by rewrite lookup_insert_ne.
Qed.

Lemma WithParams_frame_witness :
  (WithParams scenario_e (Some 2%positive) scenario_h1).2 !! 2%positive
  = scenario_h1 !! 2%positive
  /\ e_params (WithParams scenario_e (Some 2%positive) scenario_h1).1
     <> Some 2%positive.
Proof.
  apply (WithParams_frame scenario_e (Some 2%positive) scenario_h1 2%positive).
  - vm_compute. eauto.
  - vm_compute. discriminate.
Defined.

Lemma WithParams_entries_other (e : Err) (m p : Params) (h : heap) :
  allocated h p ->
  (forall l, p = Some l -> e_params e <> Some l) ->
  entries (WithParams e m h).2 p = entries h p.
Proof.
  intros Ha Hne. destruct p as [l|]; [|done]. simpl in Ha.
  unfold entries.
  by rewrite (proj1 (WithParams_frame e m h l Ha (Hne l eq_refl))).
Qed.

(** X4. Two successive merges compose: for maps [m1] and [m2] of the
    caller, [m2] not being the map [e] holds,
    [e.WithParams(m1).WithParams(m2)] holds the entries of [m2] over those
    of [m1] over those of [e], in the one map object that the first call
    returned; [m2] keeps its entries. *)
Theorem WithParams_twice (e : Err) (m1 m2 : Params) (h : heap) :
  allocated h m2 ->
  (forall l, m2 = Some l -> e_params e <> Some l) ->
  let r1 := WithParams e m1 h in
  let r2 := WithParams r1.1 m2 r1.2 in
  entries r2.2 (e_params r2.1)
  = entries h m2 ∪ (entries h m1 ∪ entries h (e_params e))
  /\ e_params r2.1 = e_params r1.1
  /\ entries r2.2 m2 = entries h m2.
Proof.
  intros Ha Hne r1 r2. subst r2.
  assert (entries r1.2 m2 = entries h m2) as Hm2.
  { by apply WithParams_entries_other. }
  assert (forall l, m2 = Some l -> e_params r1.1 <> Some l) as Hne1.
  { intros l -> Heq. unfold allocated in Ha.
    destruct (WithParams_frame e m1 h l Ha (Hne l eq_refl)) as [_ Hp].
    by apply Hp. }
  assert (allocated r1.2 m2) as Ha1.
  { destruct m2 as [l|]; [|done]. unfold allocated in *. unfold r1.
    by rewrite (proj1 (WithParams_frame e m1 h l Ha (Hne l eq_refl))). }
  split; [|split].
  - rewrite WithParams_entries, Hm2. subst r1.
    by rewrite WithParams_entries.
  - destruct (WithParams_merge e m1 h) as (_ & _ & _ & Hnn & _).
    fold r1 in Hnn. destruct (r1.1) as [slug cause details [l|]]; done.
  - rewrite WithParams_entries_other; done.
Qed.

Lemma WithParams_twice_witness :
  let r1 := WithParams (New (Some SlugInvalid) []) (Some 1%positive) merge_h0 in
  let r2 := WithParams r1.1 (Some 2%positive) r1.2 in
  entries r2.2 (e_params r2.1)
  = entries merge_h0 (Some 2%positive)
    ∪ (entries merge_h0 (Some 1%positive)
       ∪ entries merge_h0 (e_params (New (Some SlugInvalid) [])))
  /\ e_params r2.1 = e_params r1.1
  /\ entries r2.2 (Some 2%positive) = entries merge_h0 (Some 2%positive).
Proof.
  apply (WithParams_twice (New (Some SlugInvalid) [])
           (Some 1%positive) (Some 2%positive) merge_h0).
  - vm_compute. eauto.
  - intros l _. discriminate.
Defined.

Example WithParams_twice_example :
  let r1 := WithParams (New (Some SlugInvalid) []) (Some 1%positive) merge_h0 in
  let r2 := WithParams r1.1 (Some 2%positive) r1.2 in
  map_to_list (entries r2.2 (e_params r2.1)) ≡ₚ [("x", "2"); ("y", "3")]
  /\ entries r2.2 (Some 1%positive) !! "x" = Some "1".
Proof. vm_compute. split; [apply perm_swap || reflexivity | reflexivity]. Qed.

(** ** WithDetails and WithError *)

Lemma details_appended_nonempty (details d : string) :
  details +:+ ": " +:+ d <> "".
Proof. by destruct details. Qed.

(** X6. [e.WithDetails(d)] always puts the separator before [d], also
    when [e] had no details: the new details are never empty, and the
    message is the cause, the old details and [d], each followed by a colon
    and a space; on an [e] without details the message reads
    [cause: : d]. *)
Theorem WithDetails_render (e : Err) (d : string) (c : errval) (s : string) :
  e_error e = Some c ->
  Error c = Returns s ->
  e_details (WithDetails e d) = e_details e +:+ ": " +:+ d
  /\ e_details (WithDetails e d) <> ""
  /\ Err_Error (WithDetails e d)
     = Returns (s +:+ ": " +:+ e_details e +:+ ": " +:+ d)
  /\ (e_details e = "" ->
      Err_Error (WithDetails e d) = Returns (s +:+ ": : " +:+ d)).
Proof.
  destruct e as [slug cause details params]. simpl. intros -> Hs.
  split; [done|]. split; [apply details_appended_nonempty|].
  assert (Err_Error (mkErr slug (Some c) (details +:+ ": " +:+ d) params)
          = Returns (s +:+ ": " +:+ details +:+ ": " +:+ d)) as Hr.
  { unfold Err_Error. simpl. rewrite Hs.
    case_decide as Hd; [|done]. by apply details_appended_nonempty in Hd. }
  split; [exact Hr|]. intros ->. by rewrite Hr.
Qed.

Lemma WithDetails_render_witness :
  e_details (WithDetails (New (Some SlugNotFound) []) "user 42")
  = e_details (New (Some SlugNotFound) []) +:+ ": " +:+ "user 42"
  /\ e_details (WithDetails (New (Some SlugNotFound) []) "user 42") <> ""
  /\ Err_Error (WithDetails (New (Some SlugNotFound) []) "user 42")
     = Returns ("not-found" +:+ ": "
                +:+ e_details (New (Some SlugNotFound) []) +:+ ": " +:+ "user 42")
  /\ (e_details (New (Some SlugNotFound) []) = "" ->
      Err_Error (WithDetails (New (Some SlugNotFound) []) "user 42")
      = Returns ("not-found" +:+ ": : " +:+ "user 42")).
Proof.
  apply (WithDetails_render (New (Some SlugNotFound) []) "user 42"
           SlugNotFound "not-found"); reflexivity.
Defined.

Lemma fmt_w_renders (v : errval) (s : string) :
  Error v = Returns s -> fmt_w (Some v) = s.
Proof.
  intros Hs. destruct v; try discriminate; unfold fmt_w; by rewrite Hs.
Qed.

(** X7. [e.WithError(err)] on an [e] whose cause renders as [s1], with an
    [err] that renders as [s2]: the new cause renders as [s1: s2] and has
    both the old cause and [err] in its unwrap chain, so the message of the
    result starts with [s1: s2]; slug, details and parameter map are those
    of [e]. *)
Theorem WithError_cause (e : Err) (c v : errval) (s1 s2 : string) :
  e_error e = Some c ->
  Error c = Returns s1 ->
  Error v = Returns s2 ->
  exists c',
    e_error (WithError e (Some v)) = Some c'
    /\ Error c' = Returns (s1 +:+ ": " +:+ s2)
    /\ in_chain c' c /\ in_chain c' v
    /\ Err_Error (WithError e (Some v))
       = Returns (if decide (e_details e = "") then s1 +:+ ": " +:+ s2
                  else (s1 +:+ ": " +:+ s2) +:+ ": " +:+ e_details e)
    /\ e_slug (WithError e (Some v)) = e_slug e
    /\ e_details (WithError e (Some v)) = e_details e
    /\ e_params (WithError e (Some v)) = e_params e.
Proof.
  destruct e as [slug cause details params]. simpl. intros -> Hc Hv.
  eexists. split; [reflexivity|].
  unfold fmt_Errorf_w_w. rewrite (fmt_w_renders c s1 Hc), (fmt_w_renders v s2 Hv).
  split; [done|]. split.
  { eapply chain_Unwraps; [left; reflexivity | constructor]. }
  split.
  { eapply chain_Unwraps; [right; left; reflexivity | constructor]. }
  split; [|done]. unfold Err_Error. simpl. by case_decide.
Qed.

Lemma WithError_cause_witness :
  exists c',
    e_error (WithError (New (Some SlugInternal) ["save user"])
               (Some (Leaf "connection refused"))) = Some c'
    /\ Error c' = Returns ("internal-error" +:+ ": " +:+ "connection refused")
    /\ in_chain c' SlugInternal /\ in_chain c' (Leaf "connection refused")
    /\ Err_Error (WithError (New (Some SlugInternal) ["save user"])
                    (Some (Leaf "connection refused")))
       = Returns (if decide (e_details (New (Some SlugInternal) ["save user"]) = "")
                  then "internal-error" +:+ ": " +:+ "connection refused"
                  else ("internal-error" +:+ ": " +:+ "connection refused")
                       +:+ ": " +:+ e_details (New (Some SlugInternal) ["save user"]))
    /\ e_slug (WithError (New (Some SlugInternal) ["save user"])
                 (Some (Leaf "connection refused")))
       = e_slug (New (Some SlugInternal) ["save user"])
    /\ e_details (WithError (New (Some SlugInternal) ["save user"])
                    (Some (Leaf "connection refused")))
       = e_details (New (Some SlugInternal) ["save user"])
    /\ e_params (WithError (New (Some SlugInternal) ["save user"])
                   (Some (Leaf "connection refused")))
       = e_params (New (Some SlugInternal) ["save user"]).
Proof.
  apply (WithError_cause (New (Some SlugInternal) ["save user"])
           SlugInternal (Leaf "connection refused")); reflexivity.
Defined.

(** ** Enrichment, then extraction *)

(** X8. No enrichment changes the classification.  For the [Err] that
    [WithError], [WithDetails] or [WithParams] returns, [SlugFromErr] gives
    the slug of the receiver and [HTTPStatus] the status of the receiver,
    whatever cause is attached (a Typed Error attached by [WithError] is
    not looked at); [DetailFromErr] changes only by [WithDetails], and the
    map [ParamsFromErr] returns only by [WithParams]. *)
Theorem enrich_keeps_classification (op : enrichment) (e : Err) (h : heap)
    (order : list (error * Z)) :
  SlugFromErr (Some (ErrV (enrich op e h).1)) = e_slug e
  /\ HTTPStatus order (Some (ErrV (enrich op e h).1))
     = HTTPStatus order (Some (ErrV e))
  /\ (forall err, op = E_WithError err ->
        DetailFromErr (Some (ErrV (enrich op e h).1)) = e_details e
        /\ ParamsFromErr (Some (ErrV (enrich op e h).1)) = e_params e)
  /\ (forall d, op = E_WithDetails d ->
        ParamsFromErr (Some (ErrV (enrich op e h).1)) = e_params e)
  /\ (forall m, op = E_WithParams m ->
        DetailFromErr (Some (ErrV (enrich op e h).1)) = e_details e).
Proof.
  unfold HTTPStatus, getErr, SlugFromErr, DetailFromErr, ParamsFromErr.
  cbn [errors_As_Err errors_As as_ AssignableTo].
  destruct e as [slug cause details [l|]], op; cbn;
    repeat split; try done; intros ? [=]; done.
Qed.

(** ** Extraction agrees on one Typed Error *)

Lemma extraction_of_found (err : error) (e : Err) :
  errors_As_Err err = Some e ->
  NewFromError err = e
  /\ SlugFromErr err = e_slug e
  /\ DetailFromErr err = e_details e
  /\ ParamsFromErr err = e_params e
  /\ (forall order, HTTPStatus order err = HTTPStatus order (Some (ErrV e)))
  /\ (forall order h instance pbType,
         ProblemJSON order h err instance pbType
         = ProblemJSON order h (Some (ErrV e)) instance pbType).
Proof.
  intros He.
  assert (errors_As_Err (Some (ErrV e)) = Some e) as He' by done.
  unfold ProblemJSON, HTTPStatus, NewFromError, getErr, SlugFromErr,
    DetailFromErr, ParamsFromErr.
  rewrite He, He'. by repeat split.
Qed.

(** X9. The extraction functions agree.  When the unwrap chain of an error
    holds a Typed Error, there is one Typed Error of the chain that
    [NewFromError] returns and from which [SlugFromErr], [DetailFromErr]
    and [ParamsFromErr] read slug, details and parameter map; [HTTPStatus]
    and [ProblemJSON] give for the error what they give for that Typed
    Error. *)
Theorem extraction_consistent (v : errval) (e0 : Err) :
  in_chain v (ErrV e0) ->
  exists e,
    in_chain v (ErrV e)
    /\ NewFromError (Some v) = e
    /\ SlugFromErr (Some v) = e_slug e
    /\ DetailFromErr (Some v) = e_details e
    /\ ParamsFromErr (Some v) = e_params e
    /\ (forall order,
           HTTPStatus order (Some v) = HTTPStatus order (Some (ErrV e)))
    /\ (forall order h instance pbType,
           ProblemJSON order h (Some v) instance pbType
           = ProblemJSON order h (Some (ErrV e)) instance pbType).
Proof.
  intros Hc. destruct (errors_As_Err_complete v e0 Hc) as [e He].
  exists e. split; [by apply errors_As_Err_Some|].
  by apply extraction_of_found.
Qed.

Lemma extraction_consistent_witness :
  exists e,
    in_chain (Wrap "handler: forbidden"
                (Some (ErrV (New (Some SlugForbidden) ["admin only"]))))
      (ErrV e)
    /\ NewFromError
         (Some (Wrap "handler: forbidden"
                  (Some (ErrV (New (Some SlugForbidden) ["admin only"]))))) = e
    /\ SlugFromErr
         (Some (Wrap "handler: forbidden"
                  (Some (ErrV (New (Some SlugForbidden) ["admin only"])))))
       = e_slug e
    /\ DetailFromErr
         (Some (Wrap "handler: forbidden"
                  (Some (ErrV (New (Some SlugForbidden) ["admin only"])))))
       = e_details e
    /\ ParamsFromErr
         (Some (Wrap "handler: forbidden"
                  (Some (ErrV (New (Some SlugForbidden) ["admin only"])))))
       = e_params e
    /\ (forall order,
           HTTPStatus order
             (Some (Wrap "handler: forbidden"
                      (Some (ErrV (New (Some SlugForbidden) ["admin only"])))))
           = HTTPStatus order (Some (ErrV e)))
    /\ (forall order h instance pbType,
           ProblemJSON order h
             (Some (Wrap "handler: forbidden"
                      (Some (ErrV (New (Some SlugForbidden) ["admin only"])))))
             instance pbType
           = ProblemJSON order h (Some (ErrV e)) instance pbType).
Proof.
  apply (extraction_consistent _ (New (Some SlugForbidden) ["admin only"])).
  apply chain_Unwrap, chain_here.
Defined.

(** X10. Generic wrapping is transparent to extraction and lost by
    normalization: through any number of wrapping layers around a Typed
    Error [e], [DetailFromErr] and [ParamsFromErr] return the details and
    the map of [e], [ProblemJSON] builds the payload of [e], and
    [NewFromError] returns [e] itself, so that its message is the message
    of [e] without the texts of the layers. *)
Theorem extraction_through_wraps (msgs : list string) (e : Err) :
  DetailFromErr (Some (wraps msgs (ErrV e))) = e_details e
  /\ ParamsFromErr (Some (wraps msgs (ErrV e))) = e_params e
  /\ NewFromError (Some (wraps msgs (ErrV e))) = e
  /\ Err_Error (NewFromError (Some (wraps msgs (ErrV e)))) = Err_Error e
  /\ (forall order h instance pbType,
         ProblemJSON order h (Some (wraps msgs (ErrV e))) instance pbType
         = ProblemJSON order h (Some (ErrV e)) instance pbType).
Proof.
  destruct (extraction_of_found _ _ (errors_As_Err_wraps msgs e))
    as (Hn & _ & Hd & Hp & _ & Hj).
  rewrite Hn. by repeat split.
Qed.

(** ** Normalizing an error that is not typed *)

(** X11. [NewFromError] on a non-nil error without a Typed Error in its
    chain keeps the error as the cause under [SlugUnknown]: the message of
    the result is the message of the error.  The result has empty details,
    so [DetailFromErr] gives the empty text for it, where it gave
    ["unknown error"] for the error itself.  On nil, [NewFromError] returns
    an [Err] with a nil cause, whose [Error] method panics. *)
Theorem NewFromError_untyped (v : errval) :
  no_typed_error (Some v) ->
  NewFromError (Some v) = mkErr (Some SlugUnknown) (Some v) "" None
  /\ Err_Error (NewFromError (Some v)) = Error v
  /\ DetailFromErr (Some v) = "unknown error"
  /\ DetailFromErr (Some (ErrV (NewFromError (Some v)))) = ""
  /\ NewFromError None = mkErr (Some SlugUnknown) None "" None
  /\ Err_Error (NewFromError None) = Panics nil_dereference.
Proof.
  intros Hno%errors_As_Err_None.
  unfold NewFromError, getErr, DetailFromErr. rewrite Hno.
  repeat split. unfold Err_Error. simpl. by destruct (Error v).
Qed.

Lemma NewFromError_untyped_witness :
  NewFromError (Some (Leaf "disk full"))
  = mkErr (Some SlugUnknown) (Some (Leaf "disk full")) "" None
  /\ Err_Error (NewFromError (Some (Leaf "disk full")))
     = Error (Leaf "disk full")
  /\ DetailFromErr (Some (Leaf "disk full")) = "unknown error"
  /\ DetailFromErr (Some (ErrV (NewFromError (Some (Leaf "disk full"))))) = ""
  /\ NewFromError None = mkErr (Some SlugUnknown) None "" None
  /\ Err_Error (NewFromError None) = Panics nil_dereference.
Proof.
  apply (NewFromError_untyped (Leaf "disk full")).
  intros e Hc. inversion Hc.
Defined.

(** ** The status and the payload at the edges *)

Lemma HTTPStatus_nil_slug (order : list (error * Z)) (err : error) :
  e_slug (getErr err) = None ->
  HTTPStatus order err = StatusInternalServerError.
Proof.
  intros Hs. unfold HTTPStatus. by rewrite Hs, range_errorMap_nil_slug.
Qed.

(** X12. In whatever order [range] yields the table, [HTTPStatus] returns
    500 or a status of the table, and it returns 500 exactly when the
    Typed Error it reads has a nil slug, as the zero [Err] and [New(nil)]
    have. *)
Theorem HTTPStatus_500_iff_nil_slug (order : list (error * Z)) (err : error) :
  range_order order ->
  (HTTPStatus order err = StatusInternalServerError
   <-> e_slug (getErr err) = None)
  /\ HTTPStatus order err ∈ StatusInternalServerError :: table_statuses
  /\ (forall details,
        HTTPStatus order (Some (ErrV (New None details)))
        = StatusInternalServerError).
Proof.
  intros Ho. split; [|split].
  - split.
    + intros H500. destruct (e_slug (getErr err)) as [v|] eqn:Hs; [|done].
      pose proof (HTTPStatus_in_table order err v Ho Hs) as Hin.
      by apply table_statuses_not in Hin as [Hin _].
    + apply HTTPStatus_nil_slug.
  - apply elem_of_cons. destruct (e_slug (getErr err)) as [v|] eqn:Hs.
    + right. by eapply HTTPStatus_in_table.
    + left. by apply HTTPStatus_nil_slug.
  - intros details. by apply HTTPStatus_nil_slug.
Qed.

Lemma HTTPStatus_500_iff_nil_slug_witness :
  (HTTPStatus errorMap (Some (Wrap "op: failed" (Some (ErrV (mkErr None None "" None)))))
   = StatusInternalServerError
   <-> e_slug (getErr (Some (Wrap "op: failed" (Some (ErrV (mkErr None None "" None))))))
       = None)
  /\ HTTPStatus errorMap (Some (Wrap "op: failed" (Some (ErrV (mkErr None None "" None)))))
     ∈ StatusInternalServerError :: table_statuses
  /\ (forall details,
        HTTPStatus errorMap (Some (ErrV (New None details)))
        = StatusInternalServerError).
Proof.
  apply (HTTPStatus_500_iff_nil_slug errorMap). unfold range_order. reflexivity.
Defined.

(** X13. For an error without a Typed Error in its chain, nil included,
    [ProblemJSON] builds the payload of an unknown error: the title is
    [SlugUnknown], the detail is the text ["unknown error"] and there is no
    [params]; the map has exactly the five keys [type], [title], [status],
    [instance] and [detail]. *)
Theorem ProblemJSON_untyped (order : list (error * Z)) (h : heap)
    (err : error) (instance : string) (pbType : list string) :
  no_typed_error err ->
  let m := ProblemJSON order h err instance pbType in
  m !! "title" = Some (any_Slug (Some SlugUnknown))
  /\ m !! "detail" = Some (any_string "unknown error")
  /\ m !! "params" = None
  /\ dom m = {[ "type"; "title"; "status"; "instance"; "detail" ]}.
Proof.
  intros Hno%errors_As_Err_None. cbv zeta.
  unfold ProblemJSON, SlugFromErr, DetailFromErr, ParamsFromErr.
  rewrite Hno. unfold len, entries.
  destruct (decide ("unknown error" = "")) as [Hd|_]; [discriminate Hd|].
  destruct (decide (0 < size (∅ : gmap string string))%nat) as [Hp|_];
    [rewrite map_size_empty in Hp; lia|].
  split; [|split; [|split]].
  - rewrite !lookup_insert_ne by done. by rewrite lookup_insert_eq.
  - by rewrite lookup_insert_eq.
  - by rewrite !lookup_insert_ne by done.
  - rewrite !dom_insert_L, dom_empty_L. apply set_eq. intros k.
    rewrite !elem_of_union, !elem_of_singleton, elem_of_empty. tauto.
Qed.

Lemma ProblemJSON_untyped_witness :
  let m := ProblemJSON errorMap ∅ None "/orders/7" [] in
  m !! "title" = Some (any_Slug (Some SlugUnknown))
  /\ m !! "detail" = Some (any_string "unknown error")
  /\ m !! "params" = None
  /\ dom m = {[ "type"; "title"; "status"; "instance"; "detail" ]}.
Proof. apply (ProblemJSON_untyped errorMap ∅ None "/orders/7" []). exact I. Defined.

(** X14. The map of [ProblemJSON] has four keys, one more when the
    extracted detail is not empty and one more when the extracted
    parameters have an entry: between four and six. *)
Theorem ProblemJSON_size (order : list (error * Z)) (h : heap) (err : error)
    (instance : string) (pbType : list string) :
  size (ProblemJSON order h err instance pbType)
  = (4 + (if decide (DetailFromErr err = "") then 0 else 1)
       + (if decide (entries h (ParamsFromErr err) = ∅) then 0 else 1))%nat
  /\ (4 <= size (ProblemJSON order h err instance pbType) <= 6)%nat.
Proof.
  assert (size (ProblemJSON order h err instance pbType)
          = (4 + (if decide (DetailFromErr err = "") then 0 else 1)
               + (if decide (entries h (ParamsFromErr err) = ∅) then 0 else 1))%nat)
    as Hsz.
  { unfold ProblemJSON, len.
    destruct (decide (DetailFromErr err = "")) as [Hd|Hd];
      destruct (decide (entries h (ParamsFromErr err) = ∅)) as [Hp|Hp].
    all: try rewrite Hp, map_size_empty.
    all: try (rewrite decide_False by lia).
    all: try (rewrite decide_True
                by (apply Nat.neq_0_lt_0; by rewrite map_size_empty_iff)).
    all: rewrite ?map_size_insert_None
           by (rewrite ?lookup_insert_ne by done; apply lookup_empty).
    all: by rewrite map_size_empty. }
  split; [exact Hsz|]. rewrite Hsz. repeat case_decide; lia.
Qed.

(** ** Field errors of the validator *)

Lemma foldl_insert_reverse (kvs : list (string * string)) (tgt : gmap string string) :
  foldl (fun m kv => <[kv.1 := kv.2]> m) tgt kvs
  = list_to_map (reverse kvs) ∪ tgt.
Proof.
  revert tgt. induction kvs as [|[k v] kvs IH]; intros tgt.
  { simpl. by rewrite (left_id_L ∅ (∪)). }
  cbn [foldl fst snd]. rewrite IH, reverse_cons, list_to_map_app.
  rewrite <- (assoc_L (∪)). f_equal.
  rewrite list_to_map_cons, list_to_map_nil.
  by rewrite insert_empty, <- insert_union_singleton_l.
Qed.

Section ValidatorProperties.

Variable strings_ToLower : string -> string.
Variable tr : option Translator.

Lemma add_field_errors_all (fes : list FieldError) (p : Params) (h : heap) :
  exists p' h',
    add_field_errors strings_ToLower (Some <$> fes) tr p h = Returns (p', h')
    /\ entries h' p'
       = foldl (fun m kv => <[kv.1 := kv.2]> m) (entries h p)
           (field_entry strings_ToLower tr <$> fes)
    /\ (forall l, is_Some (h !! l) -> p <> Some l ->
          h' !! l = h !! l /\ p' <> Some l)
    /\ (fes = [] -> p' = p /\ h' = h)
    /\ (fes <> [] -> p' <> None).
Proof.
  revert p h. induction fes as [|fe fes IH]; intros p h.
  { exists p, h. by repeat split. }
  cbn [fmap list_fmap add_field_errors].
  pose proof (Params_Add_entries p (strings_ToLower (fe_Field fe))
                (field_entry strings_ToLower tr fe).2 h) as Hent.
  pose proof (Params_Add_other p (strings_ToLower (fe_Field fe))
                (field_entry strings_ToLower tr fe).2 h) as Hoth.
  destruct (Params_Add_result p (strings_ToLower (fe_Field fe))
              (field_entry strings_ToLower tr fe).2 h) as (Hnn & Hsame & Hfresh).
  unfold field_entry in Hent, Hoth, Hnn, Hsame, Hfresh. cbn [snd] in *.
  destruct (Params_Add p _ _ h) as [p1 h1]. cbn [fst snd] in *.
  destruct (IH p1 h1) as (p' & h' & Hrun & Hent' & Hfr' & _ & Hne').
  exists p', h'. split; [exact Hrun|]. split; [|split; [|split]].
  - rewrite Hent', Hent. reflexivity.
  - intros l Hl Hp.
    assert (p1 <> Some l) as Hp1.
    { destruct p as [l'|]; [by rewrite Hsame | by apply Hfresh]. }
    assert (is_Some (h1 !! l)) as Hl1 by (by rewrite Hoth).
    destruct (Hfr' l Hl1 Hp1) as [Heq Hp']. split; [|done].
    by rewrite Heq, Hoth.
  - done.
  - intros _. destruct fes as [|fe' fes'].
    + simpl in Hrun. by injection Hrun as <- <-.
    + by apply Hne'.
Qed.

Lemma add_field_errors_nil_element (fes : list (option FieldError))
    (p : Params) (h : heap) :
  In None fes ->
  add_field_errors strings_ToLower fes tr p h = Panics nil_dereference.
Proof.
  revert p h. induction fes as [|[fe|] fes IH]; intros p h Hin; [done| |done].
  cbn [add_field_errors]. destruct (Params_Add p _ _ h) as [p1 h1].
  apply IH. by destruct Hin.
Qed.

(** X15. On a [ValidationErrors] value with (non-nil) field errors,
    [NewFromValidator] returns an [Err] with [SlugInvalid], the value as
    cause and no details.  Its parameters map each lower-cased field name
    to a message, the translation when a translator is given and the
    field error's own text otherwise; a later field error replaces an
    earlier one of the same lower-cased name, and with distinct names there
    is one entry per field error.  Without field errors the parameter map
    is nil and the store untouched; no map that existed before is
    written. *)
Theorem NewFromValidator_fields (msg : string) (fes : list FieldError)
    (h : heap) :
  exists p h',
    NewFromValidator strings_ToLower
      (Some (ValidationErrors msg (Some <$> fes))) tr h
    = Returns (mkErr (Some SlugInvalid)
                 (Some (ValidationErrors msg (Some <$> fes))) "" p, h')
    /\ entries h' p
       = list_to_map (reverse (field_entry strings_ToLower tr <$> fes))
    /\ (forall fe, fe ∈ fes ->
          is_Some (entries h' p !! strings_ToLower (fe_Field fe)))
    /\ (NoDup (field_entry strings_ToLower tr <$> fes).*1 ->
          size (entries h' p) = length fes
          /\ forall fe, fe ∈ fes ->
               entries h' p !! strings_ToLower (fe_Field fe)
               = Some (field_entry strings_ToLower tr fe).2)
    /\ (fes = [] -> p = None /\ h' = h)
    /\ (fes <> [] -> p <> None)
    /\ (forall l, is_Some (h !! l) -> h' !! l = h !! l).
Proof.
  destruct (add_field_errors_all fes None h)
    as (p & h' & Hrun & Hent & Hfr & Hnil & Hne).
  exists p, h'. unfold NewFromValidator.
  cbn [errors_As as_ AssignableTo]. rewrite Hrun.
  rewrite foldl_insert_reverse in Hent. cbn [entries] in Hent.
  rewrite (right_id_L ∅ (∪)) in Hent.
  split; [done|]. split; [exact Hent|].
  split; [|split; [|split; [|split]]].
  - intros fe Hfe. rewrite Hent.
    apply not_eq_None_Some. rewrite <- not_elem_of_list_to_map.
    intros Hnot. apply Hnot. rewrite fmap_reverse, elem_of_reverse.
    apply list_elem_of_fmap. exists (field_entry strings_ToLower tr fe).
    split; [done|]. by apply list_elem_of_fmap_2.
  - intros Hnd. rewrite Hent.
    assert (NoDup (reverse (field_entry strings_ToLower tr <$> fes)).*1) as Hnd'.
    { by rewrite fmap_reverse, reverse_Permutation. }
    split.
    + rewrite map_size_list_to_map by done.
      by rewrite length_reverse, length_fmap.
    + intros fe Hfe. apply elem_of_list_to_map; [done|].
      rewrite elem_of_reverse.
      by apply (list_elem_of_fmap_2 (field_entry strings_ToLower tr)).
  - exact Hnil.
  - exact Hne.
  - intros l Hl. by apply Hfr.
Qed.

(** X16. A nil element among the field errors makes [NewFromValidator]
    panic, on the method call on it, whether or not a translator is
    given. *)
Theorem NewFromValidator_nil_field_error (msg : string)
    (fes : list (option FieldError)) (h : heap) :
  In None fes ->
  NewFromValidator strings_ToLower (Some (ValidationErrors msg fes)) tr h
  = Panics nil_dereference.
Proof.
  intros Hin. unfold NewFromValidator. cbn [errors_As as_ AssignableTo].
  by rewrite add_field_errors_nil_element.
Qed.

(** X17. When the unwrap chain of [err] holds an
    [InvalidValidationError], at the top or under wrapping,
    [NewFromValidator] returns an [Err] with [SlugInvalid], [err] as cause,
    no details and a nil parameter map, and leaves the store as it is. *)
Theorem NewFromValidator_invalid_validation (err : error) (h : heap) :
  chain_has_InvalidValidationError err ->
  NewFromValidator strings_ToLower err tr h
  = Returns (mkErr (Some SlugInvalid) err "" None, h)
  /\ ParamsFromErr
       (Some (ErrV (mkErr (Some SlugInvalid) err "" None))) = None.
Proof.
  intros (v & msg & -> & Hc). split; [|done].
  destruct (as_complete T_InvalidValidationErrorPtr v _ Hc eq_refl) as [w Hw].
  unfold NewFromValidator, errors_As. by rewrite Hw.
Qed.

End ValidatorProperties.

Lemma NewFromValidator_nil_field_error_witness :
  NewFromValidator ascii_ToLower
    (Some (ValidationErrors "Key: 'User.Email'"
             [Some (mkFieldError "Key: 'User.Email'" "Email" (fun _ => "e-mail"));
              None]))
    (Some (translator "en")) ∅
  = Panics nil_dereference.
Proof.
  apply (NewFromValidator_nil_field_error ascii_ToLower (Some (translator "en"))).
  right. left. reflexivity.
Defined.

Lemma NewFromValidator_invalid_validation_witness :
  NewFromValidator ascii_ToLower wrapped_InvalidValidationError None ∅
  = Returns (mkErr (Some SlugInvalid) wrapped_InvalidValidationError "" None, ∅)
  /\ ParamsFromErr
       (Some (ErrV (mkErr (Some SlugInvalid) wrapped_InvalidValidationError
                      "" None))) = None.
Proof.
  apply (NewFromValidator_invalid_validation ascii_ToLower None).
  eexists _, _. split; [reflexivity|]. apply chain_Unwrap, chain_here.
Defined.

Example NewFromValidator_two_fields :
  exists p h',
    NewFromValidator ascii_ToLower two_field_errors (Some (translator "en")) ∅
    = Returns (mkErr (Some SlugInvalid) two_field_errors "" p, h')
    /\ map_to_list (entries h' p)
       ≡ₚ [("email", "Email must be a valid address");
           ("age", "Age must be 18 or greater")].
Proof.
  eexists _, _. split; [reflexivity|]. vm_compute.
  first [reflexivity | apply perm_swap].
Qed.

(** ** What normalization returns *)

(** X18. [NewFromError] never invents a classification: either the chain
    of [err] holds no Typed Error (or [err] is nil) and the result is [err]
    kept as cause under [SlugUnknown], without details or parameters; or
    the result is a Typed Error of the chain of [err], returned as it
    is. *)
Theorem NewFromError_cases (err : error) :
  (no_typed_error err
   /\ NewFromError err = mkErr (Some SlugUnknown) err "" None)
  \/ (exists v e, err = Some v /\ in_chain v (ErrV e)
                  /\ NewFromError err = e).
Proof.
  unfold NewFromError, getErr.
  destruct (errors_As_Err err) as [e|] eqn:He.
  - right. destruct err as [v|]; [|done].
    exists v, e. split; [done|]. split; [|done].
    by apply errors_As_Err_Some.
  - left. split; [|done]. destruct err as [v|]; [|done].
    intros e Hc. destruct (errors_As_Err_complete v e Hc) as [e' He'].
    congruence.
Qed.

(** ** From construction to payload *)

Lemma ProblemJSON_conditional (order : list (error * Z)) (h : heap)
    (err : error) (instance : string) (pbType : list string) :
  ProblemJSON order h err instance pbType !! "title"
  = Some (any_Slug (SlugFromErr err))
  /\ ProblemJSON order h err instance pbType !! "detail"
     = (if decide (DetailFromErr err = "") then None
        else Some (any_string (DetailFromErr err)))
  /\ ProblemJSON order h err instance pbType !! "params"
     = (if decide (entries h (ParamsFromErr err) = ∅) then None
        else Some (any_map (ParamsFromErr err))).
Proof.
  unfold ProblemJSON, len.
  destruct (decide (DetailFromErr err = "")) as [Hd|Hd];
    destruct (decide (entries h (ParamsFromErr err) = ∅)) as [Hp|Hp].
  all: try rewrite Hp, map_size_empty.
  all: try (rewrite decide_False by lia).
  all: try (rewrite decide_True
              by (apply Nat.neq_0_lt_0; by rewrite map_size_empty_iff)).
  all: repeat split.
  all: rewrite ?lookup_insert_ne by done; rewrite ?lookup_insert_eq; try done.
  all: by rewrite ?lookup_insert_ne by done.
Qed.

(** X19. From construction to payload: for
    [New(c, parts...).WithParams(m)], [ProblemJSON] has [c] as title, the
    joined parts as [detail] unless they join to the empty text, and as
    [params] the map of the error, which holds the entries of [m], unless
    [m] has no entry; so [New(c).WithParams(m)] with a non-empty [m] gives
    a payload with [params] and without [detail]. *)
Theorem ProblemJSON_of_New_WithParams (c : Slug) (parts : list string)
    (m : Params) (h : heap) (order : list (error * Z)) (instance : string)
    (pbType : list string) :
  let r := WithParams (New c parts) m h in
  let pj := ProblemJSON order r.2 (Some (ErrV r.1)) instance pbType in
  pj !! "title" = Some (any_Slug c)
  /\ pj !! "detail"
     = (if decide (strings_Join parts ": " = "") then None
        else Some (any_string (strings_Join parts ": ")))
  /\ pj !! "params"
     = (if decide (entries h m = ∅) then None
        else Some (any_map (e_params r.1)))
  /\ entries r.2 (e_params r.1) = entries h m.
Proof.
  intros r pj.
  assert (entries r.2 (e_params r.1) = entries h m) as Hent.
  { unfold r. rewrite WithParams_entries. cbn [New e_params entries].
    apply (right_id_L ∅ (∪)). }
  destruct (ProblemJSON_conditional order r.2 (Some (ErrV r.1)) instance pbType)
    as (Ht & Hd & Hp).
  fold pj in Ht, Hd, Hp.
  unfold SlugFromErr, DetailFromErr, ParamsFromErr in Ht, Hd, Hp.
  cbn [errors_As_Err errors_As as_ AssignableTo] in Ht, Hd, Hp.
  rewrite Hent in Hp.
  by repeat split.
Qed.
